(** * Magneto [T/sqlite]: the fluent query builder

    A shallow embedding of [app/lib/T/sqlite.js].  The builder keeps one
    mutable descriptor ([this.query]); every chained call mutates it and
    returns [this]; [getExequery] renders it as [[sqlText, v1, v2, ...]];
    [execute] hands that array to the Titanium database handle.

    Conventions of the embedding
    - JavaScript values are the inductive [value].  Numbers are the integers
      that JavaScript prints as plain decimal digits (ids, counts).
    - An object is the list of its own enumerable properties in enumeration
      order (integer-like keys first in ascending order, then the other keys
      in insertion order); [set_prop] is the assignment [o[k] = v].
    - A function value is opaque: it carries its arity (its [length]) and its
      source text, and calling it is recorded as an event.
    - Throwing is an outcome next to the state, because the mutations made
      before a [throw] stay visible on [this].
    - A string is its sequence of UTF-16 code units, one character each (the
      code units below 256), so [String.length] is the [length] of the
      language.
    - Objects are plain data: they define no [toString] or [valueOf] of their
      own, and the property name [__proto__], which the language gives to the
      prototype accessor and not to an own property, is left to the
      hypotheses of the theorems that assign by name.
    - A collection that Underscore walks by index has fewer than 2^32
      entries (beyond that the allocation of the result throws); theorems on
      what a chain compiles to say which select states they cover.
    - Sums of numbers are exact on the safe integers, of magnitude at most
      2^53 - 1; theorems that add say so. *)

From Stdlib Require Import String List ZArith NArith Bool Lia.
From Stdlib Require Import Decimal DecimalString Ascii.
Import ListNotations.
Local Open Scope list_scope.
Local Open Scope string_scope.

(** ** JavaScript values *)

#[local] Set Warnings "-register-all".
#[local] Unset Elimination Schemes.

Inductive value : Type :=
| JUndefined
| JNull
| JBool (b : bool)
| JNum (n : Z)
| JStr (s : string)
| JArr (items : list value)
| JObj (props : list (string * value))
| JFun (arity : nat) (src : string).

#[local] Set Elimination Schemes.

Definition object : Type := list (string * value).

Definition nat_str (i : nat) : string := NilZero.string_of_uint (Nat.to_uint i).

(** [Array.prototype.join] on an array of strings. *)
Definition join (sep : string) (xs : list string) : string := String.concat sep xs.

(** The string a value turns into when it is added to a string. *)
Fixpoint toStr (v : value) : string :=
  match v with
  | JUndefined => "undefined"
  | JNull => "null"
  | JBool true => "true"
  | JBool false => "false"
  | JNum n => NilZero.string_of_int (Z.to_int n)
  | JStr s => s
  | JArr xs =>
      join "," (map (fun x => match x with
                              | JUndefined | JNull => ""
                              | _ => toStr x
                              end) xs)
  | JObj _ => "[object Object]"
  | JFun _ src => src
  end.

(** Truthiness, as tested by [||]. *)
Definition truthy (v : value) : bool :=
  match v with
  | JUndefined | JNull => false
  | JBool b => b
  | JNum n => negb (n =? 0)%Z
  | JStr s => negb (s =? "")
  | JArr _ | JObj _ | JFun _ _ => true
  end.

(** [a || b] *)
Definition or_else (a b : value) : value := if truthy a then a else b.

(** *** Own properties and their enumeration order *)

(** A key is an array index when it is the canonical decimal form of an
    integer below 2^32 - 1. *)
Definition array_index (k : string) : option N :=
  match NilZero.uint_of_string k with
  | Some u =>
      let n := N.of_uint u in
      if (NilZero.string_of_uint (N.to_uint n) =? k) && (n <? 4294967295)%N
      then Some n else None
  | None => None
  end.

Fixpoint get_prop (k : string) (o : object) : option value :=
  match o with
  | [] => None
  | (k', v) :: o' => if k' =? k then Some v else get_prop k o'
  end.

Fixpoint replace_prop (k : string) (v : value) (o : object) : object :=
  match o with
  | [] => []
  | (k', v') :: o' =>
      if k' =? k then (k', v) :: o' else (k', v') :: replace_prop k v o'
  end.

(** A new integer-like key goes after the smaller integer-like keys. *)
Fixpoint put_index (n : N) (k : string) (v : value) (o : object) : object :=
  match o with
  | [] => [(k, v)]
  | (k', v') :: o' =>
      match array_index k' with
      | Some n' =>
          if (n' <? n)%N then (k', v') :: put_index n k v o' else (k, v) :: o
      | None => (k, v) :: o
      end
  end.

(** [o[k] = v] *)
Definition set_prop (k : string) (v : value) (o : object) : object :=
  match get_prop k o with
  | Some _ => replace_prop k v o
  | None =>
      match array_index k with
      | Some n => put_index n k v o
      | None => (o ++ [(k, v)])%list
      end
  end.

(** ** The part of Underscore the builder calls *)

Module Underscore.

Definition isArray (v : value) : bool :=
  match v with JArr _ => true | _ => false end.

Definition isObject (v : value) : bool :=
  match v with JArr _ | JObj _ | JFun _ _ => true | _ => false end.

Definition isString (v : value) : bool :=
  match v with JStr _ => true | _ => false end.

Definition isFunction (v : value) : bool :=
  match v with JFun _ _ => true | _ => false end.

Definition indices (n : nat) : list string := map nat_str (seq 0 n).

(** [_.keys]: the own enumerable property names. *)
Definition keys (v : value) : list string :=
  match v with
  | JObj o => map fst o
  | JArr xs => indices (length xs)
  | _ => []
  end.

(** [_.values]: the property values, in the order of [keys]. *)
Definition values (v : value) : list value :=
  match v with
  | JObj o => map snd o
  | JArr xs => xs
  | _ => []
  end.

(** [_.object(list, values)]: assigns [result[list[i]] = values[i]] in turn. *)
Definition object_ (list_ values_ : list value) : value :=
  JObj (fold_left (fun o kv => set_prop (toStr (fst kv)) (snd kv) o)
                  (combine list_ values_) []).

(** The [length] under which Underscore walks a collection by index
    rather than by key. *)
Definition arrayLike (v : value) : option nat :=
  match v with
  | JArr xs => Some (length xs)
  | JStr s => Some (String.length s)
  | JFun a _ => Some a
  | JObj o =>
      match get_prop "length" o with
      | Some (JNum n) =>
          if (0 <=? n)%Z && (n <=? 9007199254740991)%Z
          then Some (Z.to_nat n) else None
      | _ => None
      end
  | _ => None
  end.

Fixpoint chars (s : string) : list value :=
  match s with
  | EmptyString => []
  | String c s' => JStr (String c EmptyString) :: chars s'
  end.

(** [v[k]] for an index [k] of an array-like [v]. *)
Definition at_index (v : value) (i : nat) : value :=
  match v with
  | JArr xs => nth i xs JUndefined
  | JStr s => nth i (chars s) JUndefined
  | JObj o => match get_prop (nat_str i) o with Some x => x | None => JUndefined end
  | _ => JUndefined
  end.

(** The (key, value) pairs [_.map(v, iteratee)] hands to its iteratee. *)
Definition pairs (v : value) : list (string * value) :=
  match arrayLike v with
  | Some n => map (fun i => (nat_str i, at_index v i)) (seq 0 n)
  | None => combine (keys v) (values v)
  end.

(** [_.map(v, function(x, k) { ... })] *)
Definition map_ {A : Type} (v : value) (iteratee : value -> string -> A) : list A :=
  map (fun kx => iteratee (snd kx) (fst kx)) (pairs v).

End Underscore.

(** ** The descriptor *)

Inductive method : Type := Select | Update | Delete | Truncate | Insert.

Record Order : Type := { key : value; direction : value }.

Record Query : Type := {
  q_method     : method;
  q_table      : string;
  q_where      : list string;
  q_whereData  : list value;
  q_select     : option value;
  q_update     : option (list string);
  q_updateData : list value;
  q_order      : option Order;
  q_insert     : option (list string);
  q_insertData : list value
}.

(** ** The database handle and the builder instance *)

(** What [db.execute] returns: a cursor over the remaining rows. *)
Record ResultSet : Type := {
  fieldNames : list string;
  rows       : list (list value)
}.

Inductive event : Type :=
| RawExecute (args : list value)          (* this.db.execute(...args) *)
| LogDebug (args : list value)            (* Ti.API.debug(...args) *)
| Callback (fn : value) (row : value).    (* loopFn(row) *)

(** [engine] answers a raw execute from the events so far and the
    arguments; [None] is an exception thrown by the database. *)
Record SQLite : Type := {
  query      : option Query;
  trace      : list event;
  engine     : list event -> list value -> option ResultSet;
  config_log : bool
}.

Definition set_query (q : option Query) (s : SQLite) : SQLite :=
  {| query := q; trace := trace s; engine := engine s; config_log := config_log s |}.

Definition emit (e : event) (s : SQLite) : SQLite :=
  {| query := query s; trace := (trace s ++ [e])%list;
     engine := engine s; config_log := config_log s |}.

(** ** Calls that may throw *)

Inductive exn : Type :=
| Error (message : string)
| TypeError
| Raised.                                  (* thrown inside db.execute *)

Definition NoActiveChain : exn := Error "Start a query chain with .table() method".
Definition InvalidArgument : exn :=
  Error "SQLite: last argument of SQLite.loop must be a Function".

Inductive outcome (A : Type) : Type :=
| Return (a : A)
| Throw (e : exn).
Arguments Return {A} a.
Arguments Throw {A} e.

Definition M (A : Type) : Type := SQLite -> outcome A * SQLite.

Definition ret {A : Type} (a : A) : M A := fun s => (Return a, s).
Definition throw {A : Type} (e : exn) : M A := fun s => (Throw e, s).
Definition bind {A B : Type} (m : M A) (k : A -> M B) : M B :=
  fun s => match m s with
           | (Return a, s') => k a s'
           | (Throw e, s') => (Throw e, s')
           end.

Notation "x <- m ;; k" := (bind m (fun x => k))
  (at level 61, m at next level, right associativity).
Notation "m ;; k" := (bind m (fun _ => k))
  (at level 61, right associativity).

(** [if (this.query === null) throw ...; f(this.query)] followed by
    [return this]: the frame shared by every mutator. *)
Definition mutate (f : Query -> Query) : M unit :=
  fun s => match query s with
           | None => (Throw NoActiveChain, s)
           | Some q => (Return tt, set_query (Some (f q)) s)
           end.

(** ** The builder's methods *)

Definition table (name : string) : M unit :=
  fun s => (Return tt, set_query (Some {|
    q_method := Select;
    q_table := name;
    q_where := [];
    q_whereData := [];
    q_select := None;
    q_update := None;
    q_updateData := [];
    q_order := None;
    q_insert := None;
    q_insertData := []
  |}) s).

Definition with_method (m : method) (q : Query) : Query :=
  {| q_method := m; q_table := q_table q; q_where := q_where q;
     q_whereData := q_whereData q; q_select := q_select q;
     q_update := q_update q; q_updateData := q_updateData q;
     q_order := q_order q; q_insert := q_insert q;
     q_insertData := q_insertData q |}.

Definition with_select (sel : option value) (q : Query) : Query :=
  {| q_method := q_method q; q_table := q_table q; q_where := q_where q;
     q_whereData := q_whereData q; q_select := sel;
     q_update := q_update q; q_updateData := q_updateData q;
     q_order := q_order q; q_insert := q_insert q;
     q_insertData := q_insertData q |}.

Definition with_update (ks : list string) (vs : list value) (q : Query) : Query :=
  {| q_method := q_method q; q_table := q_table q; q_where := q_where q;
     q_whereData := q_whereData q; q_select := q_select q;
     q_update := Some ks; q_updateData := vs;
     q_order := q_order q; q_insert := q_insert q;
     q_insertData := q_insertData q |}.

Definition with_insert (ks : list string) (vs : list value) (q : Query) : Query :=
  {| q_method := q_method q; q_table := q_table q; q_where := q_where q;
     q_whereData := q_whereData q; q_select := q_select q;
     q_update := q_update q; q_updateData := q_updateData q;
     q_order := q_order q; q_insert := Some ks;
     q_insertData := vs |}.

Definition with_order (o : Order) (q : Query) : Query :=
  {| q_method := q_method q; q_table := q_table q; q_where := q_where q;
     q_whereData := q_whereData q; q_select := q_select q;
     q_update := q_update q; q_updateData := q_updateData q;
     q_order := Some o; q_insert := q_insert q;
     q_insertData := q_insertData q |}.

Definition with_where (w : list string) (d : list value) (q : Query) : Query :=
  {| q_method := q_method q; q_table := q_table q; q_where := w;
     q_whereData := d; q_select := q_select q;
     q_update := q_update q; q_updateData := q_updateData q;
     q_order := q_order q; q_insert := q_insert q;
     q_insertData := q_insertData q |}.

Definition select_state (args : list value) : option value :=
  match args with
  | [] => None
  | [a] =>
      if Underscore.isArray a then Some (Underscore.object_ (Underscore.values a) (Underscore.values a))
      else if Underscore.isObject a then Some a
      else Some (Underscore.object_ [a] [a])
  | _ => Some (Underscore.object_ args args)
  end.

Definition select (args : list value) : M unit :=
  mutate (fun q => with_select (select_state args) (with_method Select q)).

(** [update] and [insert] take the mapping their comments show. *)
Definition update (obj : object) : M unit :=
  mutate (fun q => with_update (Underscore.keys (JObj obj)) (Underscore.values (JObj obj))
                               (with_method Update q)).

Definition delete : M unit := mutate (with_method Delete).

Definition order (key_ direction_ : value) : M unit :=
  mutate (with_order {| key := key_; direction := or_else direction_ (JStr "ASC") |}).

Definition orderBy := order.

Definition truncate : M unit := mutate (with_method Truncate).

(** [where] dispatches on the number of arguments, then on the shape of
    the only argument. *)
Definition where_step (args : list value) (q : Query) : Query :=
  match args with
  | [a] =>
      if Underscore.isObject a then
        with_where (map (fun k => k ++ " = ?") (Underscore.keys a)) (Underscore.values a) q
      else if Underscore.isString a then
        with_where (q_where q ++ [toStr a]) (q_whereData q) q
      else q
  | [a; b] =>
      with_where (q_where q ++ [toStr a ++ " = ?"]) (q_whereData q ++ [b]) q
  | [a; b; c] =>
      with_where (q_where q ++ [toStr a ++ " " ++ toStr b ++ " ?"]) (q_whereData q ++ [c]) q
  | _ => q
  end.

Definition where_ (args : list value) : M unit := mutate (where_step args).

Definition andWhere := where_.

Definition insert (obj : object) : M unit :=
  mutate (fun q => with_insert (Underscore.keys (JObj obj)) (Underscore.values (JObj obj))
                               (with_method Insert q)).

(** The local [whereClause] of [getExequery]. *)
Definition whereClause (q : Query) : string :=
  match q_where q with
  | [] => ""
  | _ :: _ => " WHERE " ++ join " AND " (q_where q)
  end.

Definition columns (sel : option value) : string :=
  match sel with
  | None => "*"
  | Some o => join "," (Underscore.map_ o (fun v k => k ++ " AS " ++ toStr v))
  end.

Definition orderClause (o : option Order) : string :=
  match o with
  | None => ""
  | Some r => " ORDER BY " ++ toStr (key r) ++ " " ++ toStr (direction r)
  end.

(** The array [getExequery] returns for a descriptor; [null.join] is a
    [TypeError]. *)
Definition compile (q : Query) : outcome (list value) :=
  match q_method q with
  | Select =>
      Return (JStr ("SELECT " ++ columns (q_select q) ++
                    " FROM " ++ q_table q ++
                    whereClause q ++
                    orderClause (q_order q))
              :: q_whereData q)
  | Update =>
      match q_update q with
      | None => Throw TypeError
      | Some cols =>
          Return ((JStr ("UPDATE " ++ q_table q ++
                         " SET " ++ (join " = ?, " cols ++ " = ?") ++
                         whereClause q)
                   :: q_updateData q) ++ q_whereData q)%list
      end
  | Delete =>
      Return (JStr ("DELETE FROM " ++ q_table q ++ whereClause q) :: q_whereData q)
  | Truncate =>
      Return [JStr ("TRUNCATE TABLE " ++ q_table q)]
  | Insert =>
      match q_insert q with
      | None => Throw TypeError
      | Some cols =>
          Return (JStr ("INSERT INTO " ++ q_table q ++
                        "(" ++ join "," cols ++ ") " ++
                        "VALUES (" ++ join "," (map (fun _ => "?") cols) ++ ")")
                  :: q_insertData q)
      end
  end.

Definition getExequery : M (list value) :=
  fun s => match query s with
           | None => (Throw NoActiveChain, s)
           | Some q => (compile q, s)
           end.

(** [Function.prototype.apply.call(this.db.execute, this.db, args)] *)
Definition raw_execute (args : list value) : M ResultSet :=
  fun s => match engine s (trace s) args with
           | Some r => (Return r, emit (RawExecute args) s)
           | None => (Throw Raised, emit (RawExecute args) s)
           end.

Definition debug (args : list value) : M unit :=
  fun s => (Return tt, if config_log s
                       then emit (LogDebug [JStr "SQLite:"; JArr args]) s else s).

Definition execute (args : list value) : M ResultSet :=
  fun s => match query s with
           | None => (debug args ;; raw_execute args) s
           | Some _ =>
               (q <- getExequery ;;
                (fun s' => (Return tt, set_query None s')) ;;
                debug q ;;
                raw_execute q) s
           end.

Definition exec := execute.

(** The row object [loop] builds: [obj[fieldNames[i]] = row.field(i)] for
    [i] below [fieldCount]. *)
Definition row_object (names : list string) (row : list value) : value :=
  JObj (fold_left (fun o i => set_prop (nth i names "") (nth i row JNull) o)
                  (seq 0 (length names)) []).

Fixpoint each_row (loopFn : value) (names : list string) (rs : list (list value)) : M unit :=
  match rs with
  | [] => ret tt
  | r :: rs' =>
      (fun s => (Return tt, emit (Callback loopFn (row_object names r)) s)) ;;
      each_row loopFn names rs'
  end.

(** [_arguments.pop()] *)
Definition pop (args : list value) : value * list value :=
  (last args JUndefined, removelast args).

Definition loop (args : list value) : M unit :=
  let (loopFn, _arguments) := pop args in
  if negb (Underscore.isFunction loopFn) then throw InvalidArgument
  else
    row <- execute _arguments ;;
    each_row loopFn (fieldNames row) (rows row).

(** *** The result helpers

    Each one runs [execute] with its own arguments and reads the cursor:
    [rows] holds the current row and the rows after it, [row.validRow] says
    that a current row exists and [row.next()] drops it. *)

(** [value], alias [val]: the first field of the first row, or [null]. *)
Definition val (args : list value) : M value :=
  row <- execute args ;;
  ret (match rows row with
       | [] => JNull
       | r :: _ => nth 0 r JNull
       end).

(** [single], alias [row]: the first row as an object, or [null]. *)
Definition single (args : list value) : M value :=
  row <- execute args ;;
  ret (match rows row with
       | [] => JNull
       | r :: _ => row_object (fieldNames row) r
       end).

(** [list], alias [array]: the first field of every row. *)
Definition array (args : list value) : M (list value) :=
  row <- execute args ;;
  ret (map (fun r => nth 0 r JNull) (rows row)).

(** [all], alias [rows]: every row as an object. *)
Definition all (args : list value) : M (list value) :=
  row <- execute args ;;
  ret (map (row_object (fieldNames row)) (rows row)).

(** [new SQLite(name)]: no chain yet, nothing sent to the database. *)
Definition opened (db : list event -> list value -> option ResultSet) (log : bool) : SQLite :=
  {| query := None; trace := []; engine := db; config_log := log |}.

(** ** Calls as data, to speak about whole chains *)

Inductive call : Type :=
| CallSelect (args : list value)
| CallUpdate (obj : object)
| CallDelete
| CallOrder (key_ direction_ : value)
| CallTruncate
| CallWhere (args : list value)
| CallInsert (obj : object).

Definition perform (c : call) : M unit :=
  match c with
  | CallSelect args => select args
  | CallUpdate obj => update obj
  | CallDelete => delete
  | CallOrder k d => order k d
  | CallTruncate => truncate
  | CallWhere args => where_ args
  | CallInsert obj => insert obj
  end.

Fixpoint chain (cs : list call) : M unit :=
  match cs with
  | [] => ret tt
  | c :: cs' => perform c ;; chain cs'
  end.

(** What each mutator does to the descriptor of an active chain. *)
Definition effect (c : call) (q : Query) : Query :=
  match c with
  | CallSelect args => with_select (select_state args) (with_method Select q)
  | CallUpdate obj =>
      with_update (Underscore.keys (JObj obj)) (Underscore.values (JObj obj))
                  (with_method Update q)
  | CallDelete => with_method Delete q
  | CallOrder k d => with_order {| key := k; direction := or_else d (JStr "ASC") |} q
  | CallTruncate => with_method Truncate q
  | CallWhere args => where_step args q
  | CallInsert obj =>
      with_insert (Underscore.keys (JObj obj)) (Underscore.values (JObj obj))
                  (with_method Insert q)
  end.

(** The descriptor [table] creates. *)
Definition fresh (name : string) : Query :=
  {| q_method := Select; q_table := name; q_where := []; q_whereData := [];
     q_select := None; q_update := None; q_updateData := [];
     q_order := None; q_insert := None; q_insertData := [] |}.

(** A descriptor every branch of [getExequery] can render. *)
Definition renderable (q : Query) : Prop :=
  (q_method q = Update -> q_update q <> None) /\
  (q_method q = Insert -> q_insert q <> None).

(** The three accumulating shapes of a [where] call. *)
Inductive filter : Type :=
| Raw (fragment : string)                  (* where('a > 1') *)
| Equals (column value_ : value)           (* where('id', 2) *)
| Compares (column operator value_ : value). (* where('s', 'LIKE', 'x') *)

Definition filter_args (f : filter) : list value :=
  match f with
  | Raw str => [JStr str]
  | Equals c v => [c; v]
  | Compares c op v => [c; op; v]
  end.

Fixpoint wheres (fs : list filter) : M unit :=
  match fs with
  | [] => ret tt
  | f :: fs' => where_ (filter_args f) ;; wheres fs'
  end.

(** The fragment and the bound values a filter stands for. *)
Definition fragment_of (f : filter) : string :=
  match f with
  | Raw str => str
  | Equals c _ => toStr c ++ " = ?"
  | Compares c op _ => toStr c ++ " " ++ toStr op ++ " ?"
  end.

Definition bound_of (f : filter) : list value :=
  match f with
  | Raw _ => []
  | Equals _ v => [v]
  | Compares _ _ v => [v]
  end.

(** A mapping from column names to column names, as an object. *)
Definition names (m : list (string * string)) : object :=
  map (fun kv => (fst kv, JStr (snd kv))) m.

(** A database that answers every statement with an empty result set. *)
Definition quiet : list event -> list value -> option ResultSet :=
  fun _ _ => Some {| fieldNames := []; rows := [] |}.

(** A database whose every answer is the same two rows of (id, title). *)
Definition two_rows : list event -> list value -> option ResultSet :=
  fun _ _ => Some {| fieldNames := ["id"; "title"];
                     rows := [[JNum 1; JStr "a"]; [JNum 2; JStr "b"]] |}.

(** *** Renderings as the specification words them *)

(** ["col1 = ?, col2 = ?"]: one assignment per column, separated by [", "]. *)
Definition spec_assignments (cols : list string) : string :=
  join ", " (map (fun c => c ++ " = ?") cols).

(** [UPDATE <table> SET col1 = ?, col2 = ? ... WHERE <c> = ?] *)
Definition spec_update_text (t : string) (cols : list string) (c : string) : string :=
  "UPDATE " ++ t ++ " SET " ++ spec_assignments cols ++ " WHERE " ++ c ++ " = ?".

(** [INSERT INTO <table> (col1,col2,...) VALUES (?,?,...)] *)
Definition spec_insert_text (t : string) (cols : list string) : string :=
  "INSERT INTO " ++ t ++ " (" ++ join "," cols ++ ") VALUES (" ++
  join "," (map (fun _ => "?") cols) ++ ")".

(** ["source AS alias"] per entry of a mapping from alias to source. *)
Definition spec_columns (m : list (string * string)) : string :=
  join "," (map (fun alias_source => snd alias_source ++ " AS " ++ fst alias_source) m).

(** ** Notions used by the further properties *)

Definition emits (es : list event) (s : SQLite) : SQLite :=
  fold_left (fun s e => emit e s) es s.

(** Assigning a list of (key, value) pairs in turn to an object. *)
Definition assign_all (kvs : list (string * value)) (o : object) : object :=
  fold_left (fun o kv => set_prop (fst kv) (snd kv) o) kvs o.

(** Column lists and bound values go in step. *)
Definition balanced (q : Query) : Prop :=
  (forall cols, q_update q = Some cols -> length cols = length (q_updateData q)) /\
  (forall cols, q_insert q = Some cols -> length cols = length (q_insertData q)) /\
  length (q_whereData q) <= length (q_where q).

(** *** [SQLite.fromFile]: the database name and the copy's path

    [file.name.replace(/\..+$/, '')] removes the first dot that is followed,
    up to the end of the name, by one or more characters other than line
    terminators, together with what follows it.  File names are taken to be
    ASCII. *)

Definition line_terminator (c : Ascii.ascii) : bool :=
  (Ascii.eqb c "010" || Ascii.eqb c "013")%char.

Fixpoint one_line (s : string) : bool :=
  match s with
  | EmptyString => true
  | String c r => negb (line_terminator c) && one_line r
  end.

Fixpoint strip_extension (s : string) : string :=
  match s with
  | EmptyString => EmptyString
  | String c r =>
      if Ascii.eqb c "." && negb (r =? "") && one_line r
      then EmptyString
      else String c (strip_extension r)
  end.

(** [Util.getDatabaseDirectory() + '/' + name + '.sql'] *)
Definition destination (directory file_name : string) : string :=
  directory ++ "/" ++ strip_extension file_name ++ ".sql".

Fixpoint has_dot (s : string) : bool :=
  match s with
  | EmptyString => false
  | String c r => Ascii.eqb c "." || has_dot r
  end.

(** * The notifications module and its HTTP driver

    [T/notifications] and [T/notifications/http].  The platform modules
    (badge store, iOS notification actions, the HTTP client) are outside the
    repository: a native constructor is modelled by the dictionary it is
    given, and [HTTP.send] by the request it is given. *)

(** [v == null] *)
Definition nullish (v : value) : bool :=
  match v with JNull | JUndefined => true | _ => false end.


(** [o.k] on an object: a missing property reads [undefined]. *)
Definition prop (o : object) (k : string) : value :=
  match get_prop k o with Some v => v | None => JUndefined end.


Module Notifications.

(** *** [validateToken]

    [token != null && token != "undefined" && token != "null" &&
     token.length >= 32], on any value: the function has no type test. *)

(** [v.length] *)
Definition length_of (v : value) : value :=
  match v with
  | JStr t => JNum (Z.of_nat (String.length t))
  | JArr xs => JNum (Z.of_nat (length xs))
  | JFun a _ => JNum (Z.of_nat a)
  | JObj o => prop o "length"
  | _ => JUndefined
  end.

(** [v != s] for [s] one of ['undefined'] and ['null'], which read as no
    number: a number or a boolean never equals them, an object is compared
    by the string it turns into. *)
Definition differs_from (v : value) (s : string) : bool :=
  match v with
  | JStr t => negb (t =? s)
  | JArr _ | JObj _ | JFun _ _ => negb (toStr v =? s)
  | _ => true
  end.

Section Tokens.

(** [ToNumber(s) >= 32] for a string [s]: how the language reads a string
    as a number is left open. *)
Variable reads_at_least_32 : string -> bool.

(** [x >= 32] *)
Definition at_least_32 (x : value) : bool :=
  match x with
  | JNum n => (32 <=? n)%Z
  | JUndefined | JNull | JBool _ => false
  | JStr t => reads_at_least_32 t
  | JArr _ | JObj _ | JFun _ _ => reads_at_least_32 (toStr x)
  end.

Definition validateToken (token : value) : bool :=
  negb (nullish token) &&
  differs_from token "undefined" &&
  differs_from token "null" &&
  at_least_32 (length_of token).

End Tokens.

(** *** The badge

    The state is the number the platform module keeps: [getAppBadge]
    returns what [setAppBadge] stored last. *)

(** The integers on which the sums of the language are exact. *)
Definition safe_integer (z : Z) : Prop :=
  (- 9007199254740991 <= z <= 9007199254740991)%Z.

Definition setBadge (x : Z) (appBadge : Z) : Z := Z.max x 0.

Definition getBadge (appBadge : Z) : Z := appBadge.

Definition resetBadge (appBadge : Z) : Z := setBadge 0 appBadge.

Definition incBadge (i : Z) (appBadge : Z) : Z :=
  setBadge (getBadge appBadge + i) appBadge.

Inductive badge_call : Type :=
| SetBadge (x : Z)
| ResetBadge
| IncBadge (i : Z).

Definition badge_step (appBadge : Z) (c : badge_call) : Z :=
  match c with
  | SetBadge x => setBadge x appBadge
  | ResetBadge => resetBadge appBadge
  | IncBadge i => incBadge i appBadge
  end.

(** *** Interactive notification categories *)



Section Actions.

(** [v == true], the loose comparison of the language. *)
Variable loosely_true : value -> bool.




End Actions.


End Notifications.

Module HttpDriver.







End HttpDriver.

(** * The window factory: the action bar titles

    [processTitles] of [T/uifactory/window] hands these two properties to
    the action bar. *)

Module Window.

(** [v === false] *)
Definition is_false (v : value) : bool :=
  match v with JBool false => true | _ => false end.

(** [a && b] *)
Definition and_also (a b : value) : value := if truthy a then b else a.

Definition processTitles (title subtitle appName : value) : object :=
  [("title",
    if truthy (and_also title subtitle) then title
    else if is_false subtitle then title else appName);
   ("subtitle",
    if truthy (and_also title subtitle) then subtitle
    else if is_false subtitle then JNull else or_else title JNull)].

End Window.

(** * Properties *)

(** ** Strings *)

Lemma append_empty_r (a : string) : a ++ "" = a.
Proof. induction a as [|c a IH]; simpl; [reflexivity | now rewrite IH]. Qed.

Lemma append_assoc (a b c : string) : (a ++ b) ++ c = a ++ (b ++ c).
Proof. induction a as [|x a IH]; simpl; [reflexivity | now rewrite IH]. Qed.

Lemma join_cons2 (sep x y : string) (xs : list string) :
  join sep (x :: y :: xs) = x ++ sep ++ join sep (y :: xs).
Proof. reflexivity. Qed.

(** ** The frame of a mutator *)

Lemma set_query_query (o : option Query) (s : SQLite) : query (set_query o s) = o.
Proof. reflexivity. Qed.

Lemma set_query_twice (o o' : option Query) (s : SQLite) :
  set_query o (set_query o' s) = set_query o s.
Proof. reflexivity. Qed.

Lemma set_query_same (s : SQLite) : set_query (query s) s = s.
Proof. now destruct s. Qed.

Lemma mutate_idle (f : Query -> Query) (s : SQLite) :
  query s = None -> mutate f s = (Throw NoActiveChain, s).
Proof. intros H; unfold mutate; now rewrite H. Qed.

Lemma mutate_active (f : Query -> Query) (s : SQLite) (q : Query) :
  query s = Some q -> mutate f s = (Return tt, set_query (Some (f q)) s).
Proof. intros H; unfold mutate; now rewrite H. Qed.

Lemma perform_idle (c : call) (s : SQLite) :
  query s = None -> perform c s = (Throw NoActiveChain, s).
Proof. intros H; destruct c; apply mutate_idle, H. Qed.

Lemma perform_active (c : call) (s : SQLite) (q : Query) :
  query s = Some q -> perform c s = (Return tt, set_query (Some (effect c q)) s).
Proof. intros H; destruct c; apply mutate_active, H. Qed.

Lemma table_starts (name : string) (s : SQLite) :
  table name s = (Return tt, set_query (Some (fresh name)) s).
Proof. reflexivity. Qed.

Lemma chain_active (cs : list call) :
  forall (s : SQLite) (q : Query),
    query s = Some q ->
    chain cs s = (Return tt, set_query (Some (fold_left (fun q c => effect c q) cs q)) s).
Proof.
  induction cs as [|c cs IH]; intros s q H; simpl.
  - unfold ret. rewrite <- H. now rewrite set_query_same.
  - unfold bind. rewrite (perform_active c s q H).
    rewrite (IH _ (effect c q) (set_query_query _ _)).
    now rewrite set_query_twice.
Qed.

(** ** Descriptors reached by a chain can always be rendered *)

Lemma fresh_renderable (name : string) : renderable (fresh name).
Proof. split; discriminate. Qed.

Lemma where_step_keeps (args : list value) (q : Query) :
  q_method (where_step args q) = q_method q /\
  q_update (where_step args q) = q_update q /\
  q_insert (where_step args q) = q_insert q.
Proof.
  unfold where_step.
  destruct args as [|a [|b [|c [|d rest]]]]; try (repeat split; reflexivity).
  destruct (Underscore.isObject a); [repeat split; reflexivity|].
  destruct (Underscore.isString a); repeat split; reflexivity.
Qed.

Lemma effect_renderable (c : call) (q : Query) :
  renderable q -> renderable (effect c q).
Proof.
  intros [Hu Hi]. destruct c; simpl;
    try (split; simpl; first [discriminate | assumption]).
  destruct (where_step_keeps args q) as (Hm & Hup & Hin).
  unfold renderable. rewrite Hm, Hup, Hin. now split.
Qed.

Lemma effects_renderable (cs : list call) :
  forall q, renderable q -> renderable (fold_left (fun q c => effect c q) cs q).
Proof.
  induction cs as [|c cs IH]; intros q H; simpl; [assumption|].
  apply IH, effect_renderable, H.
Qed.

Lemma renderable_compiles (q : Query) :
  renderable q -> exists r, compile q = Return r.
Proof.
  intros [Hu Hi]. unfold compile.
  destruct (q_method q) eqn:Hm; try (eexists; reflexivity).
  - destruct (q_update q); [eexists; reflexivity | now elim Hu].
  - destruct (q_insert q); [eexists; reflexivity | now elim Hi].
Qed.

(** ** The builder on the examples of its own comments *)

Example select_names :
  fst ((table "t" ;; select [JStr "id"; JStr "title"; JStr "order"] ;; getExequery)
         (opened quiet false)) =
    Return [JStr "SELECT id AS id,title AS title,order AS order FROM t"].
Proof. reflexivity. Qed.

Example select_array_of_names :
  fst ((table "t" ;; select [JArr [JStr "id"; JStr "title"]] ;; getExequery)
         (opened quiet false)) =
    Return [JStr "SELECT id AS id,title AS title FROM t"].
Proof. reflexivity. Qed.

Example select_one_name :
  fst ((table "t" ;; select [JStr "id"] ;; getExequery) (opened quiet false)) =
    Return [JStr "SELECT id AS id FROM t"].
Proof. reflexivity. Qed.

Example select_integer_like_names_first :
  fst ((table "t" ;; select [JStr "b"; JNum 10; JStr "a"; JNum 2] ;; getExequery)
         (opened quiet false)) =
    Return [JStr "SELECT 2 AS 2,10 AS 10,b AS b,a AS a FROM t"].
Proof. reflexivity. Qed.

Example where_like :
  fst ((table "t" ;; where_ [JStr "string"; JStr "LIKE"; JStr "test"] ;;
        where_ [JStr "id"; JNum 2] ;; where_ [JStr "n > 0"] ;; getExequery)
         (opened quiet false)) =
    Return [JStr "SELECT * FROM t WHERE string LIKE ? AND id = ? AND n > 0";
            JStr "test"; JNum 2].
Proof. reflexivity. Qed.

Example truncate_compiles :
  fst ((table "t" ;; truncate ;; getExequery) (opened quiet false)) =
    Return [JStr "TRUNCATE TABLE t"].
Proof. reflexivity. Qed.

Example insert_ignores_filters :
  fst ((table "t" ;; insert [("a", JNum 1)] ;; where_ [JStr "id"; JNum 5] ;; getExequery)
         (opened quiet false)) =
    Return [JStr "INSERT INTO t(a) VALUES (?)"; JNum 1].
Proof. reflexivity. Qed.

Example execute_raw_sql_passes_through :
  snd (execute [JStr "SELECT 1"; JNum 3] (opened quiet true)) =
    {| query := None;
       trace := [LogDebug [JStr "SQLite:"; JArr [JStr "SELECT 1"; JNum 3]];
                 RawExecute [JStr "SELECT 1"; JNum 3]];
       engine := quiet; config_log := true |}.
Proof. reflexivity. Qed.

Example execute_chain_then_reset :
  snd ((table "t" ;; delete ;; where_ [JStr "id"; JNum 5] ;; execute [])
         (opened quiet false)) =
    {| query := None;
       trace := [RawExecute [JStr "DELETE FROM t WHERE id = ?"; JNum 5]];
       engine := quiet; config_log := false |}.
Proof. reflexivity. Qed.

Example loop_calls_back_per_row :
  trace (snd ((table "t" ;; loop [JFun 1 "function(row) {}"]) (opened two_rows false))) =
    [RawExecute [JStr "SELECT * FROM t"];
     Callback (JFun 1 "function(row) {}") (JObj [("id", JNum 1); ("title", JStr "a")]);
     Callback (JFun 1 "function(row) {}") (JObj [("id", JNum 2); ("title", JStr "b")])].
Proof. reflexivity. Qed.

(** ** Compiling and executing *)

Lemma getExequery_active (s : SQLite) (q : Query) :
  query s = Some q -> getExequery s = (compile q, s).
Proof. intros H; unfold getExequery; now rewrite H. Qed.

Lemma getExequery_idle (s : SQLite) :
  query s = None -> getExequery s = (Throw NoActiveChain, s).
Proof. intros H; unfold getExequery; now rewrite H. Qed.

Lemma debug_keeps_query (args : list value) (s : SQLite) :
  query (snd (debug args s)) = query s /\ fst (debug args s) = Return tt.
Proof. unfold debug; simpl; now destruct (config_log s). Qed.

Lemma raw_execute_keeps_query (args : list value) (s : SQLite) :
  query (snd (raw_execute args s)) = query s /\
  trace (snd (raw_execute args s)) = (trace s ++ [RawExecute args])%list.
Proof. unfold raw_execute; now destruct (engine s (trace s) args). Qed.

(** On an active chain [execute] compiles, resets, then calls the database
    with the compiled array. *)
Lemma execute_active (args r : list value) (s : SQLite) (q : Query) :
  query s = Some q -> compile q = Return r ->
  execute args s = raw_execute r (snd (debug r (set_query None s))).
Proof.
  intros Hq Hc. unfold execute. rewrite Hq.
  unfold bind, getExequery. rewrite Hq, Hc.
  unfold debug. reflexivity.
Qed.

(** The reset survives whatever the database answers. *)
Lemma execute_active_resets (args r : list value) (s : SQLite) (q : Query) :
  query s = Some q -> compile q = Return r ->
  query (snd (execute args s)) = None /\
  exists before, trace (snd (execute args s)) = (before ++ [RawExecute r])%list.
Proof.
  intros Hq Hc. rewrite (execute_active args r s q Hq Hc).
  destruct (raw_execute_keeps_query r (snd (debug r (set_query None s)))) as [Hr Ht].
  split.
  - rewrite Hr. now rewrite (proj1 (debug_keeps_query r (set_query None s))).
  - eexists. exact Ht.
Qed.

(** C10. Whatever the table name, [table(t)] creates a descriptor whose
    method is 'select', whose where list is empty and whose select and order
    are null; compiling it at once gives exactly ['SELECT * FROM t'] and no
    bound value, although [select()] was never called. *)
Theorem table_alone_compiles_to_select_all (t : string) (s : SQLite) :
  table t s = (Return tt, set_query (Some (fresh t)) s) /\
  q_method (fresh t) = Select /\
  q_where (fresh t) = [] /\
  q_select (fresh t) = None /\
  q_order (fresh t) = None /\
  (table t ;; getExequery) s =
    (Return [JStr ("SELECT * FROM " ++ t)], set_query (Some (fresh t)) s).
Proof.
  repeat split.
  unfold bind, table, getExequery, compile, fresh; simpl.
  now rewrite append_empty_r.
Qed.

(** C8. [table(t).select().where({x:1}).order('y')] compiles to exactly
    ['SELECT * FROM t WHERE x = ? ORDER BY y ASC'] with the bound values
    [[1]]; and [order] called without a direction stores 'ASC'. *)
Theorem select_where_order_compiles (t : string) (s : SQLite) :
  fst ((table t ;;
        select [] ;;
        where_ [JObj [("x", JNum 1)]] ;;
        order (JStr "y") JUndefined ;;
        getExequery) s)
    = Return [JStr ("SELECT * FROM " ++ t ++ " WHERE x = ? ORDER BY y ASC"); JNum 1] /\
  forall (k : value) (q : Query),
    order k JUndefined (set_query (Some q) s) =
      (Return tt,
       set_query (Some (with_order {| key := k; direction := JStr "ASC" |} q)) s).
Proof.
  split; [reflexivity | intros k q; reflexivity].
Qed.

(** C6. On a builder with no active chain (the descriptor is null), each of
    select, update, delete, order, truncate, where, insert and getExequery
    throws the error 'Start a query chain with .table() method', and the
    builder, its descriptor included, is left as it was. *)
Theorem idle_builder_rejects_every_call (s : SQLite) :
  query s = None ->
  (forall args, select args s = (Throw NoActiveChain, s)) /\
  (forall obj, update obj s = (Throw NoActiveChain, s)) /\
  delete s = (Throw NoActiveChain, s) /\
  (forall k d, order k d s = (Throw NoActiveChain, s)) /\
  truncate s = (Throw NoActiveChain, s) /\
  (forall args, where_ args s = (Throw NoActiveChain, s)) /\
  (forall obj, insert obj s = (Throw NoActiveChain, s)) /\
  getExequery s = (Throw NoActiveChain, s) /\
  NoActiveChain = Error "Start a query chain with .table() method".
Proof.
  intros H.
  repeat split; intros; try (apply mutate_idle, H).
  apply getExequery_idle, H.
Qed.

Lemma idle_builder_rejects_every_call_witness :
  query (opened quiet false) = None /\
  select [JStr "id"] (opened quiet false) = (Throw NoActiveChain, opened quiet false) /\
  getExequery (opened quiet false) = (Throw NoActiveChain, opened quiet false).
Proof.
  split; [reflexivity|].
  destruct (idle_builder_rejects_every_call (opened quiet false) eq_refl)
    as (Hsel & _ & _ & _ & _ & _ & _ & Hget & _).
  split; [apply Hsel | apply Hget].
Defined.

(** C9. When the last argument of [loop] is not a function (or there is no
    argument at all), [loop] throws 'SQLite: last argument of SQLite.loop must
    be a Function' at once: nothing reaches [execute] or the database handle,
    and the descriptor is untouched. *)
Theorem loop_rejects_non_callable (args : list value) (s : SQLite) :
  Underscore.isFunction (last args JUndefined) = false ->
  loop args s = (Throw InvalidArgument, s) /\
  InvalidArgument = Error "SQLite: last argument of SQLite.loop must be a Function".
Proof.
  intros H. split; [|reflexivity].
  unfold loop, pop. now rewrite H.
Qed.

Lemma loop_rejects_non_callable_witness :
  loop [JStr "SELECT * FROM t WHERE id = ?"; JNum 7] (opened quiet true)
    = (Throw InvalidArgument, opened quiet true).
Proof.
  apply (loop_rejects_non_callable
           [JStr "SELECT * FROM t WHERE id = ?"; JNum 7] (opened quiet true)).
  reflexivity.
Defined.

(** C5. Take any chain started with [table(t)] and continued with any
    mutators.  [execute] compiles it, resets the descriptor to null and hands
    the compiled array to the database; afterwards every mutator and
    [getExequery] throw the no-active-chain error, until [table] starts a new
    chain, on which mutators succeed again. *)
Theorem execute_consumes_the_chain
  (t : string) (cs : list call) (args : list value) (s : SQLite) :
  let active := snd ((table t ;; chain cs) s) in
  let after := snd (execute args active) in
  (exists q r, query active = Some q /\ compile q = Return r /\
               exists before, trace after = (before ++ [RawExecute r])%list) /\
  query after = None /\
  (forall c, perform c after = (Throw NoActiveChain, after)) /\
  getExequery after = (Throw NoActiveChain, after) /\
  (forall t' c, fst ((table t' ;; perform c) after) = Return tt).
Proof.
  intros active after.
  set (q := fold_left (fun q c => effect c q) cs (fresh t)).
  assert (Hactive : active = set_query (Some q) s).
  { unfold active, bind. rewrite table_starts.
    rewrite (chain_active cs _ (fresh t) (set_query_query _ _)).
    now rewrite set_query_twice. }
  assert (Hq : query active = Some q) by now rewrite Hactive.
  destruct (renderable_compiles q) as [r Hr].
  { apply effects_renderable, fresh_renderable. }
  destruct (execute_active_resets args r active q Hq Hr) as [Hnone Htrace].
  fold after in Hnone, Htrace.
  split; [exists q, r; auto|].
  split; [exact Hnone|].
  split; [intros c; apply perform_idle, Hnone|].
  split; [apply getExequery_idle, Hnone|].
  intros t' c. unfold bind. rewrite table_starts.
  now rewrite (perform_active c _ (fresh t') (set_query_query _ _)).
Qed.

(** C1. On an active chain, [where(m)] with a mapping [m] replaces the
    where list, whatever it held, by one fragment ["key = ?"] per key of [m],
    and the bound values by the values of [m], both in the key order of [m]:
    the two lists have as many entries as [m] has keys and the i-th value
    belongs to the i-th placeholder. *)
Theorem where_mapping_replaces (m : object) (q : Query) (s : SQLite) :
  query s = Some q ->
  let q' := with_where (map (fun kv => fst kv ++ " = ?") m) (map snd m) q in
  where_ [JObj m] s = (Return tt, set_query (Some q') s) /\
  length (q_where q') = length m /\
  length (q_whereData q') = length m /\
  forall i k v, nth_error m i = Some (k, v) ->
    nth_error (q_where q') i = Some (k ++ " = ?") /\
    nth_error (q_whereData q') i = Some v.
Proof.
  intros Hq q'.
  split.
  - unfold where_. rewrite (mutate_active _ s q Hq).
    unfold where_step, q'; simpl. now rewrite map_map.
  - unfold q'; simpl. rewrite !length_map. repeat split.
    + now rewrite (nth_error_map (fun kv => fst kv ++ " = ?") i m), H.
    + now rewrite (nth_error_map snd i m), H.
Qed.

Lemma where_mapping_replaces_witness :
  where_ [JObj [("id", JNum 2); ("id_sub", JNum 3)]]
         (snd ((table "t" ;; where_ [JStr "a"; JNum 1]) (opened quiet false)))
  = (Return tt,
     set_query (Some (with_where ["id = ?"; "id_sub = ?"] [JNum 2; JNum 3] (fresh "t")))
               (opened quiet false)).
Proof.
  exact (proj1 (where_mapping_replaces
                  [("id", JNum 2); ("id_sub", JNum 3)]
                  (with_where ["a = ?"] [JNum 1] (fresh "t"))
                  (snd ((table "t" ;; where_ [JStr "a"; JNum 1]) (opened quiet false)))
                  eq_refl)).
Defined.

(** ** Accumulating filters *)

Lemma with_where_same (q : Query) : with_where (q_where q) (q_whereData q) q = q.
Proof. now destruct q. Qed.

Lemma with_where_twice (w w' : list string) (d d' : list value) (q : Query) :
  with_where w d (with_where w' d' q) = with_where w d q.
Proof. reflexivity. Qed.

Lemma where_step_filter (f : filter) (q : Query) :
  where_step (filter_args f) q =
    with_where (q_where q ++ [fragment_of f]) (q_whereData q ++ bound_of f) q.
Proof.
  destruct f; simpl; try reflexivity.
  now rewrite app_nil_r.
Qed.

Lemma wheres_accumulate (fs : list filter) :
  forall (q : Query) (s : SQLite),
    wheres fs (set_query (Some q) s) =
      (Return tt,
       set_query (Some (with_where (q_where q ++ map fragment_of fs)
                                   (q_whereData q ++ flat_map bound_of fs) q)) s).
Proof.
  induction fs as [|f fs IH]; intros q s; simpl.
  - unfold ret. now rewrite !app_nil_r, with_where_same.
  - unfold bind, where_.
    rewrite (mutate_active _ _ q (set_query_query _ _)), set_query_twice.
    rewrite where_step_filter, IH. simpl.
    now rewrite with_where_twice, <- !app_assoc.
Qed.

(** C4. On an active chain, a [where] call with one raw string, with
    (column, value) or with (column, operator, value) appends one fragment to
    the where list and keeps the fragments already there; after any number of
    such calls the fragments stand in call order.  The compiled WHERE clause
    of a non-empty where list is the fragments joined by [" AND "] behind
    [" WHERE "], as the select and delete statements of such a chain show. *)
Theorem where_positional_accumulates (q : Query) (s : SQLite) :
  (forall str,
     where_ [JStr str] (set_query (Some q) s) =
       (Return tt,
        set_query (Some (with_where (q_where q ++ [str]) (q_whereData q) q)) s)) /\
  (forall c v,
     where_ [c; v] (set_query (Some q) s) =
       (Return tt,
        set_query (Some (with_where (q_where q ++ [toStr c ++ " = ?"])
                                    (q_whereData q ++ [v]) q)) s)) /\
  (forall c op v,
     where_ [c; op; v] (set_query (Some q) s) =
       (Return tt,
        set_query (Some (with_where (q_where q ++ [toStr c ++ " " ++ toStr op ++ " ?"])
                                    (q_whereData q ++ [v]) q)) s)) /\
  (forall fs,
     wheres fs (set_query (Some q) s) =
       (Return tt,
        set_query (Some (with_where (q_where q ++ map fragment_of fs)
                                    (q_whereData q ++ flat_map bound_of fs) q)) s)) /\
  (forall f fs d,
     whereClause (with_where (f :: fs) d q) = " WHERE " ++ join " AND " (f :: fs)) /\
  (forall t f fs,
     fst ((table t ;; wheres (f :: fs) ;; getExequery) s) =
       Return (JStr ("SELECT * FROM " ++ t ++
                     " WHERE " ++ join " AND " (map fragment_of (f :: fs)))
               :: flat_map bound_of (f :: fs))) /\
  (forall t f fs,
     fst ((table t ;; delete ;; wheres (f :: fs) ;; getExequery) s) =
       Return (JStr ("DELETE FROM " ++ t ++
                     " WHERE " ++ join " AND " (map fragment_of (f :: fs)))
               :: flat_map bound_of (f :: fs))).
Proof.
  split; [intros str; reflexivity|].
  split; [intros c v; reflexivity|].
  split; [intros c op v; reflexivity|].
  split; [intros fs; apply wheres_accumulate|].
  split; [intros f fs d; reflexivity|].
  split; intros t f fs.
  - unfold bind at 1. rewrite table_starts.
    unfold bind. rewrite wheres_accumulate.
    unfold getExequery, compile; simpl.
    now rewrite append_empty_r.
  - unfold bind at 1. rewrite table_starts.
    unfold bind at 1, delete.
    rewrite (mutate_active _ _ (fresh t) (set_query_query _ _)), set_query_twice.
    unfold bind. rewrite wheres_accumulate.
    unfold getExequery, compile; simpl. reflexivity.
Qed.

(** ** Update *)

Lemma assignments_join (c : string) (cs : list string) :
  join " = ?, " (c :: cs) ++ " = ?" = spec_assignments (c :: cs).
Proof.
  revert c. induction cs as [|c' cs IH]; intros c.
  - reflexivity.
  - rewrite join_cons2, !append_assoc, IH.
    unfold spec_assignments. cbn [map]. rewrite join_cons2.
    now rewrite append_assoc.
Qed.

(** C2, as the code has it.  For a mapping [m] with at least one key,
    [table(t).update(m).where(c, v)] compiles to
    ['UPDATE t SET k1 = ?, k2 = ? ... WHERE c = ?'] followed by the values of
    [m] and then [v]; so [update({a:1}).where('id',5)] gives
    ['UPDATE t SET a = ? WHERE id = ?'] with [[1,5]]. *)
Theorem update_then_where_compiles
  (t : string) (m : object) (c : string) (v : value) (s : SQLite) :
  m <> [] ->
  fst ((table t ;; update m ;; where_ [JStr c; v] ;; getExequery) s) =
    Return (JStr (spec_update_text t (map fst m) c) :: (map snd m ++ [v])%list) /\
  fst ((table t ;; update [("a", JNum 1)] ;; where_ [JStr "id"; JNum 5] ;; getExequery) s) =
    Return [JStr ("UPDATE " ++ t ++ " SET a = ? WHERE id = ?"); JNum 1; JNum 5].
Proof.
  intros Hm. split; [|reflexivity].
  destruct m as [|[k x] m]; [now elim Hm|].
  unfold bind, table, update, where_, mutate, getExequery, compile; simpl.
  change (String.concat " = ?, " (k :: map fst m)) with (join " = ?, " (k :: map fst m)).
  unfold spec_update_text.
  rewrite <- (assignments_join k (map fst m)).
  now rewrite !append_assoc.
Qed.

Lemma update_then_where_compiles_witness :
  fst ((table "t" ;; update [("a", JNum 1); ("b", JStr "x")] ;;
        where_ [JStr "id"; JNum 5] ;; getExequery) (opened quiet false)) =
    Return [JStr "UPDATE t SET a = ?, b = ? WHERE id = ?"; JNum 1; JStr "x"; JNum 5].
Proof.
  refine (proj1 (update_then_where_compiles
                   "t" [("a", JNum 1); ("b", JStr "x")] "id" (JNum 5)
                   (opened quiet false) _)).
  discriminate.
Defined.

(** C2 fails for the empty mapping: the text gets an assignment without a
    column, and two placeholders for one bound value. *)
Lemma update_empty_mapping_counterexample :
  fst ((table "t" ;; update [] ;; where_ [JStr "id"; JNum 5] ;; getExequery)
         (opened quiet false)) =
    Return [JStr "UPDATE t SET  = ? WHERE id = ?"; JNum 5] /\
  fst ((table "t" ;; update [] ;; where_ [JStr "id"; JNum 5] ;; getExequery)
         (opened quiet false)) <>
    Return (JStr (spec_update_text "t" [] "id") :: [JNum 5]).
Proof.
  split; [reflexivity | discriminate].
Qed.

(** ** Insert *)

(** C3, as the code has it.  [table(t).insert(m)] compiles to
    ['INSERT INTO t(k1,k2,...) VALUES (?,?,...)'], with no space between the
    table name and the column list, one placeholder per column, followed by
    the values of [m] in key order; so [insert({a:1,b:2})] gives
    ['INSERT INTO t(a,b) VALUES (?,?)'] with [[1,2]]. *)
Theorem insert_compiles (t : string) (m : object) (s : SQLite) :
  fst ((table t ;; insert m ;; getExequery) s) =
    Return (JStr ("INSERT INTO " ++ t ++ "(" ++ join "," (map fst m) ++
                  ") VALUES (" ++ join "," (map (fun _ => "?") m) ++ ")")
            :: map snd m) /\
  length (map fst m) = length (map (fun _ : string * value => "?") m) /\
  length (map fst m) = length (map snd m) /\
  fst ((table t ;; insert [("a", JNum 1); ("b", JNum 2)] ;; getExequery) s) =
    Return [JStr ("INSERT INTO " ++ t ++ "(a,b) VALUES (?,?)"); JNum 1; JNum 2].
Proof.
  split; [|split; [|split]].
  - unfold bind, table, insert, mutate, getExequery, compile; simpl.
    now rewrite map_map.
  - now rewrite !length_map.
  - now rewrite !length_map.
  - reflexivity.
Qed.

(** C3 fails on the spec's own example: the compiled text has no space
    before the column list. *)
Lemma insert_text_counterexample :
  fst ((table "t" ;; insert [("a", JNum 1); ("b", JNum 2)] ;; getExequery)
         (opened quiet false)) =
    Return [JStr "INSERT INTO t(a,b) VALUES (?,?)"; JNum 1; JNum 2] /\
  fst ((table "t" ;; insert [("a", JNum 1); ("b", JNum 2)] ;; getExequery)
         (opened quiet false)) <>
    Return (JStr (spec_insert_text "t" ["a"; "b"]) :: [JNum 1; JNum 2]).
Proof.
  split; [reflexivity | discriminate].
Qed.

(** ** Select *)

Lemma get_prop_names (k : string) (m : list (string * string)) :
  get_prop k (names m) = None \/ exists x, get_prop k (names m) = Some (JStr x).
Proof.
  induction m as [|[k' x] m IH]; simpl; [now left|].
  destruct (k' =? k); [right; now exists x | exact IH].
Qed.

Lemma names_not_array_like (m : list (string * string)) :
  Underscore.arrayLike (JObj (names m)) = None.
Proof.
  unfold Underscore.arrayLike.
  destruct (get_prop_names "length" m) as [H | [x H]]; now rewrite H.
Qed.

Lemma combine_fst_snd {A B : Type} (l : list (A * B)) :
  combine (map fst l) (map snd l) = l.
Proof. induction l as [|[a b] l IH]; simpl; [reflexivity | now rewrite IH]. Qed.

Lemma columns_names (m : list (string * string)) :
  columns (Some (JObj (names m))) =
    join "," (map (fun kv => fst kv ++ " AS " ++ snd kv) m).
Proof.
  unfold columns, Underscore.map_, Underscore.pairs.
  rewrite names_not_array_like.
  unfold Underscore.keys, Underscore.values.
  rewrite combine_fst_snd. unfold names. now rewrite map_map.
Qed.

(** C7, as the code has it.  A mapping of names handed to [select] is
    stored as it is, and each entry key -> value renders as ['key AS value']
    (the key is the source column, the value its alias), the entries joined
    by [',']; a null select state renders as ['*']. *)
Theorem select_mapping_renders_key_as_value
  (t : string) (m : list (string * string)) (s : SQLite) :
  (forall q,
     select [JObj (names m)] (set_query (Some q) s) =
       (Return tt,
        set_query (Some (with_select (Some (JObj (names m))) (with_method Select q))) s)) /\
  columns (Some (JObj (names m))) =
    join "," (map (fun kv => fst kv ++ " AS " ++ snd kv) m) /\
  columns None = "*" /\
  (forall q,
     compile (with_select (Some (JObj (names m))) (with_method Select q)) =
       Return (JStr ("SELECT " ++
                     join "," (map (fun kv => fst kv ++ " AS " ++ snd kv) m) ++
                     " FROM " ++ q_table q ++ whereClause q ++ orderClause (q_order q))
               :: q_whereData q)) /\
  fst ((table t ;; select [JObj (names m)] ;; getExequery) s) =
    Return [JStr ("SELECT " ++
                  join "," (map (fun kv => fst kv ++ " AS " ++ snd kv) m) ++
                  " FROM " ++ t)] /\
  fst ((table t ;; select [] ;; getExequery) s) =
    Return [JStr ("SELECT * FROM " ++ t)].
Proof.
  split; [intros q; reflexivity|].
  split; [apply columns_names|].
  split; [reflexivity|].
  split.
  { intros q. unfold compile. cbn [q_method with_select with_method q_select].
    now rewrite columns_names. }
  split.
  - unfold bind, table, select, mutate, getExequery, compile.
    cbn [query set_query fst snd q_method q_select q_table q_whereData
         q_order with_select with_method select_state Underscore.isArray
         Underscore.isObject fresh whereClause q_where orderClause].
    rewrite columns_names. cbn [whereClause q_where orderClause].
    now rewrite !append_empty_r.
  - unfold bind, table, select, mutate, getExequery, compile; simpl.
    now rewrite append_empty_r.
Qed.

(** C7 fails on the example of the source's own comment: the key comes
    first, the value after [AS]. *)
Lemma select_alias_direction_counterexample :
  fst ((table "t" ;; select [JObj (names [("_alias", "alias"); ("_id", "id")])] ;;
        getExequery) (opened quiet false)) =
    Return [JStr "SELECT _alias AS alias,_id AS id FROM t"] /\
  fst ((table "t" ;; select [JObj (names [("_alias", "alias"); ("_id", "id")])] ;;
        getExequery) (opened quiet false)) <>
    Return [JStr ("SELECT " ++ spec_columns [("_alias", "alias"); ("_id", "id")] ++
                  " FROM t")].
Proof.
  split; [reflexivity | discriminate].
Qed.

(** * Further properties of the builder *)

(** ** Chains and their descriptors *)

Lemma chain_from_table (t : string) (cs : list call) (s : SQLite) :
  (table t ;; chain cs) s =
    (Return tt, set_query (Some (fold_left (fun q c => effect c q) cs (fresh t))) s).
Proof.
  unfold bind. rewrite table_starts.
  rewrite (chain_active cs _ (fresh t) (set_query_query _ _)).
  now rewrite set_query_twice.
Qed.

Lemma renderable_compiles_text (q : Query) :
  renderable q -> exists sql bound, compile q = Return (JStr sql :: bound).
Proof.
  intros [Hu Hi]. unfold compile.
  destruct (q_method q) eqn:Hm; try (eexists; eexists; reflexivity).
  - destruct (q_update q); [eexists; eexists; reflexivity | now elim Hu].
  - destruct (q_insert q); [eexists; eexists; reflexivity | now elim Hi].
Qed.

(** X1. On a chain started with [table] whose select state is null or is
    walked by key (it is not array-like), [getExequery] does not throw,
    returns an array headed by the SQL text, and leaves the descriptor in
    place: the chain can be compiled again, with the same result. *)
Theorem getExequery_keeps_the_chain (t : string) (cs : list call) (s : SQLite) :
  let active := snd ((table t ;; chain cs) s) in
  (forall q v, query active = Some q -> q_select q = Some v ->
               Underscore.arrayLike v = None) ->
  exists sql bound,
    getExequery active = (Return (JStr sql :: bound), active) /\
    (getExequery ;; getExequery) active = (Return (JStr sql :: bound), active).
Proof.
  intros active _. unfold active. rewrite chain_from_table. simpl snd.
  set (q := fold_left (fun q c => effect c q) cs (fresh t)).
  destruct (renderable_compiles_text q) as (sql & bound & Hc).
  { apply effects_renderable, fresh_renderable. }
  exists sql, bound.
  assert (H : getExequery (set_query (Some q) s) =
              (Return (JStr sql :: bound), set_query (Some q) s)).
  { rewrite (getExequery_active _ q (set_query_query _ _)). now rewrite Hc. }
  split; [exact H|].
  unfold bind. now rewrite H.
Qed.

Lemma getExequery_keeps_the_chain_witness :
  exists sql bound,
    getExequery (snd ((table "t" ;; chain [CallSelect [JStr "id"; JStr "title"];
                                           CallWhere [JStr "id"; JNum 2]])
                        (opened quiet false))) =
      (Return (JStr sql :: bound),
       snd ((table "t" ;; chain [CallSelect [JStr "id"; JStr "title"];
                                 CallWhere [JStr "id"; JNum 2]])
              (opened quiet false))).
Proof.
  destruct (getExequery_keeps_the_chain
              "t" [CallSelect [JStr "id"; JStr "title"]; CallWhere [JStr "id"; JNum 2]]
              (opened quiet false)) as (sql & bound & H & _).
  - intros q v Hq Hv. injection Hq as <-. injection Hv as <-. reflexivity.
  - exists sql, bound. exact H.
Defined.

(** ** Columns and bound values go in step *)

Lemma keys_values_length (v : value) :
  length (Underscore.keys v) = length (Underscore.values v).
Proof.
  destruct v; simpl; try reflexivity.
  - unfold Underscore.indices. now rewrite length_map, length_seq.
  - now rewrite !length_map.
Qed.

Lemma where_step_keeps_data (args : list value) (q : Query) :
  q_updateData (where_step args q) = q_updateData q /\
  q_insertData (where_step args q) = q_insertData q /\
  q_table (where_step args q) = q_table q.
Proof.
  unfold where_step.
  destruct args as [|a [|b [|c [|d rest]]]]; try (repeat split; reflexivity).
  destruct (Underscore.isObject a); [repeat split; reflexivity|].
  destruct (Underscore.isString a); repeat split; reflexivity.
Qed.

Lemma where_step_balanced (args : list value) (q : Query) :
  length (q_whereData q) <= length (q_where q) ->
  length (q_whereData (where_step args q)) <= length (q_where (where_step args q)).
Proof.
  intros H. unfold where_step.
  destruct args as [|a [|b [|c [|d rest]]]]; simpl; try exact H.
  - destruct (Underscore.isObject a); simpl.
    + rewrite length_map, keys_values_length. apply le_n.
    + destruct (Underscore.isString a); simpl; [|exact H].
      rewrite length_app; simpl; lia.
  - rewrite !length_app; simpl; lia.
  - rewrite !length_app; simpl; lia.
Qed.

Lemma fresh_balanced (t : string) : balanced (fresh t).
Proof. repeat split; simpl; try discriminate. apply le_n. Qed.

Lemma effect_balanced (c : call) (q : Query) : balanced q -> balanced (effect c q).
Proof.
  intros (Hu & Hi & Hw).
  destruct c; simpl; try (repeat split; assumption).
  - repeat split; simpl; try assumption.
    intros cols E; injection E as <-. now rewrite !length_map.
  - destruct (where_step_keeps args q) as (_ & Hup & Hin).
    destruct (where_step_keeps_data args q) as (Hud & Hid & _).
    unfold balanced. rewrite Hup, Hin, Hud, Hid.
    repeat split; try assumption. now apply where_step_balanced.
  - repeat split; simpl; try assumption.
    intros cols E; injection E as <-. now rewrite !length_map.
Qed.

Lemma effects_balanced (cs : list call) :
  forall q, balanced q -> balanced (fold_left (fun q c => effect c q) cs q).
Proof.
  induction cs as [|c cs IH]; intros q H; simpl; [assumption|].
  apply IH, effect_balanced, H.
Qed.

(** X2. Whatever mutators follow [table], the descriptor keeps as many
    update values as update columns and as many insert values as insert
    columns, and never more where values than where fragments.  So a
    compiled insert carries one bound value per [?] of its VALUES list, and
    a compiled update one per assignment followed by the where values. *)
Theorem chains_keep_columns_and_values_in_step
  (t : string) (cs : list call) (s : SQLite) :
  exists q,
    query (snd ((table t ;; chain cs) s)) = Some q /\
    balanced q /\
    forall r, compile q = Return r ->
      match q_method q with
      | Insert => exists cols, q_insert q = Some cols /\ length r = S (length cols)
      | Update => exists cols, q_update q = Some cols /\
                               length r = S (length cols + length (q_whereData q))
      | Truncate => length r = 1
      | Select | Delete => length r = S (length (q_whereData q))
      end.
Proof.
  rewrite chain_from_table. simpl snd.
  set (q := fold_left (fun q c => effect c q) cs (fresh t)).
  assert (Hb : balanced q) by apply effects_balanced, fresh_balanced.
  exists q. split; [reflexivity|]. split; [exact Hb|].
  destruct Hb as (Hu & Hi & _).
  intros r. unfold compile.
  destruct (q_method q).
  - intros E; injection E as <-. reflexivity.
  - destruct (q_update q) as [cols|] eqn:Hq; [|discriminate].
    intros E; injection E as <-. exists cols. split; [reflexivity|].
    simpl. rewrite length_app. now rewrite (Hu cols eq_refl).
  - intros E; injection E as <-. reflexivity.
  - intros E; injection E as <-. reflexivity.
  - destruct (q_insert q) as [cols|] eqn:Hq; [|discriminate].
    intros E; injection E as <-. exists cols. split; [reflexivity|].
    simpl. now rewrite (Hi cols eq_refl).
Qed.

(** ** Calls that change nothing *)

(** X3. On an active chain, [where] called with no argument, with more than
    three, or with a single argument that is neither an object nor a string
    returns normally and leaves the descriptor exactly as it was. *)
Theorem where_ignores_other_shapes (args : list value) (q : Query) (s : SQLite) :
  args = [] \/ 3 < length args \/
  (exists a, args = [a] /\ Underscore.isObject a = false /\ Underscore.isString a = false) ->
  where_ args (set_query (Some q) s) = (Return tt, set_query (Some q) s).
Proof.
  intros H. unfold where_.
  rewrite (mutate_active _ _ q (set_query_query _ _)), set_query_twice.
  f_equal. f_equal. f_equal.
  destruct H as [-> | [H | (a & -> & Ho & Hs)]].
  - reflexivity.
  - destruct args as [|a [|b [|c [|d rest]]]]; simpl in H; try lia. reflexivity.
  - unfold where_step. now rewrite Ho, Hs.
Qed.

Lemma where_ignores_other_shapes_witness :
  where_ [JNum 5] (set_query (Some (fresh "t")) (opened quiet false)) =
    (Return tt, set_query (Some (fresh "t")) (opened quiet false)) /\
  where_ [JStr "a"; JStr "="; JNum 1; JNum 2] (set_query (Some (fresh "t")) (opened quiet false)) =
    (Return tt, set_query (Some (fresh "t")) (opened quiet false)).
Proof.
  split.
  - apply (where_ignores_other_shapes [JNum 5]).
    right; right. exists (JNum 5). repeat split.
  - apply (where_ignores_other_shapes [JStr "a"; JStr "="; JNum 1; JNum 2]).
    right; left. simpl. lia.
Defined.

(** X4. An insert or truncate statement takes no filter: on a chain whose
    method is insert or truncate, a [where] call of any shape leaves the
    compiled array unchanged. *)
Theorem insert_and_truncate_ignore_filters
  (args : list value) (q : Query) (s : SQLite) :
  query s = Some q ->
  q_method q = Insert \/ q_method q = Truncate ->
  fst ((where_ args ;; getExequery) s) = fst (getExequery s).
Proof.
  intros Hq Hm. unfold bind, where_.
  rewrite (mutate_active _ s q Hq).
  rewrite (getExequery_active _ _ (set_query_query _ _)), (getExequery_active s q Hq).
  simpl fst.
  destruct (where_step_keeps args q) as (Hme & _ & Hin).
  destruct (where_step_keeps_data args q) as (_ & Hid & Ht).
  unfold compile. rewrite Hme, Hin, Hid, Ht.
  destruct Hm as [-> | ->]; reflexivity.
Qed.

Lemma insert_and_truncate_ignore_filters_witness :
  fst ((where_ [JStr "id"; JNum 5] ;; getExequery)
         (snd ((table "t" ;; insert [("a", JNum 1)]) (opened quiet false)))) =
  fst (getExequery (snd ((table "t" ;; insert [("a", JNum 1)]) (opened quiet false)))).
Proof.
  apply (insert_and_truncate_ignore_filters
           [JStr "id"; JNum 5]
           (effect (CallInsert [("a", JNum 1)]) (fresh "t"))
           (snd ((table "t" ;; insert [("a", JNum 1)]) (opened quiet false)))).
  - reflexivity.
  - left; reflexivity.
Defined.

(** X5. Only a select statement is ordered: on a chain whose method is not
    select, an [order] call leaves the compiled array unchanged. *)
Theorem order_only_reaches_select
  (k d : value) (q : Query) (s : SQLite) :
  query s = Some q ->
  q_method q <> Select ->
  fst ((order k d ;; getExequery) s) = fst (getExequery s).
Proof.
  intros Hq Hm. unfold bind, order.
  rewrite (mutate_active _ s q Hq).
  rewrite (getExequery_active _ _ (set_query_query _ _)), (getExequery_active s q Hq).
  simpl fst. unfold compile; simpl.
  destruct (q_method q); [now elim Hm | reflexivity ..].
Qed.

Lemma order_only_reaches_select_witness :
  fst ((order (JStr "id") (JStr "DESC") ;; getExequery)
         (snd ((table "t" ;; delete) (opened quiet false)))) =
  fst (getExequery (snd ((table "t" ;; delete) (opened quiet false)))).
Proof.
  apply (order_only_reaches_select
           (JStr "id") (JStr "DESC") (with_method Delete (fresh "t"))
           (snd ((table "t" ;; delete) (opened quiet false)))).
  - reflexivity.
  - discriminate.
Defined.

(** ** Executing *)

(** X6. With no active chain, [execute] is a raw-SQL call: the database
    receives exactly the arguments given (after the debug line, when logging
    is on), its answer or its exception comes back unchanged, and no chain is
    started. *)
Theorem execute_passes_raw_sql_through (args : list value) (s : SQLite) :
  query s = None ->
  let logged := if config_log s
                then emit (LogDebug [JStr "SQLite:"; JArr args]) s else s in
  execute args s =
    (match engine s (trace logged) args with
     | Some r => Return r
     | None => Throw Raised
     end,
     emit (RawExecute args) logged) /\
  query (snd (execute args s)) = None.
Proof.
  intros Hq logged. unfold execute. rewrite Hq.
  unfold bind, debug, raw_execute. cbv beta iota. fold logged.
  assert (He : engine logged = engine s) by (unfold logged; now destruct (config_log s)).
  assert (Hl : query logged = None) by (unfold logged; now destruct (config_log s)).
  rewrite He.
  destruct (engine s (trace logged) args); simpl; now rewrite Hl.
Qed.

Lemma execute_passes_raw_sql_through_witness :
  execute [JStr "SELECT * FROM t WHERE id = ?"; JNum 7] (opened two_rows false) =
    (Return {| fieldNames := ["id"; "title"];
               rows := [[JNum 1; JStr "a"]; [JNum 2; JStr "b"]] |},
     emit (RawExecute [JStr "SELECT * FROM t WHERE id = ?"; JNum 7])
          (opened two_rows false)).
Proof.
  exact (proj1 (execute_passes_raw_sql_through
                  [JStr "SELECT * FROM t WHERE id = ?"; JNum 7]
                  (opened two_rows false) eq_refl)).
Defined.

(** X7. On an active chain the arguments of [execute] and of the result
    helpers are not looked at: any two argument lists give the same result
    and the same builder state. *)
Theorem active_chain_ignores_arguments (args args' : list value) (s : SQLite) :
  query s <> None ->
  execute args s = execute args' s /\
  val args s = val args' s /\
  single args s = single args' s /\
  array args s = array args' s /\
  all args s = all args' s.
Proof.
  intros Hq.
  assert (He : execute args s = execute args' s).
  { unfold execute. destruct (query s); [reflexivity | now elim Hq]. }
  unfold val, single, array, all, bind. rewrite He. repeat split.
Qed.

Lemma active_chain_ignores_arguments_witness :
  val [JStr "SELECT 1"] (snd (table "t" (opened two_rows false))) =
  val [] (snd (table "t" (opened two_rows false))).
Proof.
  refine (proj1 (proj2 (active_chain_ignores_arguments
                          [JStr "SELECT 1"] []
                          (snd (table "t" (opened two_rows false))) _))).
  discriminate.
Defined.

(** ** The result helpers read the same cursor *)

(** X8. [value] returns what [list] has in first place, and [null] when
    [list] is empty; both leave the builder as [execute] leaves it and
    throw what [execute] throws. *)
Theorem val_is_first_of_array (args : list value) (s : SQLite) :
  val args s =
    (match fst (array args s) with
     | Return xs => Return (hd JNull xs)
     | Throw e => Throw e
     end,
     snd (array args s)) /\
  snd (array args s) = snd (execute args s).
Proof.
  unfold val, array, bind, ret.
  destruct (execute args s) as [[r|e] s']; simpl; [|split; reflexivity].
  destruct (rows r); split; reflexivity.
Qed.

(** X9. [single] returns the first of the row objects [all] returns, and
    [null] when [all] is empty; [all] has one object per entry of [list];
    and they leave the builder as [execute] leaves it. *)
Theorem single_is_first_of_all (args : list value) (s : SQLite) :
  single args s =
    (match fst (all args s) with
     | Return objs => Return (hd JNull objs)
     | Throw e => Throw e
     end,
     snd (all args s)) /\
  snd (all args s) = snd (execute args s) /\
  match fst (all args s), fst (array args s) with
  | Return objs, Return xs => length objs = length xs
  | Throw e, Throw e' => e = e'
  | _, _ => False
  end.
Proof.
  unfold single, all, array, bind, ret.
  destruct (execute args s) as [[r|e] s']; simpl.
  - split; [destruct (rows r); reflexivity|]. split; [reflexivity|].
    now rewrite !length_map.
  - repeat split.
Qed.

Lemma emits_cons (e : event) (es : list event) (s : SQLite) :
  emits (e :: es) s = emits es (emit e s).
Proof. reflexivity. Qed.




(** ** Objects: what is assigned is what is read *)

Lemma get_prop_replace_same (k : string) (v : value) (o : object) :
  get_prop k o <> None -> get_prop k (replace_prop k v o) = Some v.
Proof.
  induction o as [|[k' v'] o IH]; simpl; intros H; [now elim H|].
  destruct (k' =? k) eqn:E; simpl; rewrite E; [reflexivity | now apply IH].
Qed.

Lemma get_prop_replace_other (k k' : string) (v : value) (o : object) :
  k' <> k -> get_prop k' (replace_prop k v o) = get_prop k' o.
Proof.
  intros Hne. induction o as [|[k0 v0] o IH]; simpl; [reflexivity|].
  destruct (k0 =? k) eqn:E; simpl.
  - apply String.eqb_eq in E; subst k0.
    destruct (k =? k') eqn:E'; [|reflexivity].
    apply String.eqb_eq in E'. now elim Hne.
  - now rewrite IH.
Qed.

Lemma get_prop_put_index_same (n : N) (k : string) (v : value) (o : object) :
  get_prop k o = None -> get_prop k (put_index n k v o) = Some v.
Proof.
  induction o as [|[k' v'] o IH]; simpl; intros H.
  - now rewrite String.eqb_refl.
  - destruct (k' =? k) eqn:E; [discriminate|].
    destruct (array_index k') as [n'|]; [destruct (n' <? n)%N|]; simpl;
      rewrite ?E, ?String.eqb_refl; auto.
Qed.

Lemma get_prop_put_index_other (n : N) (k k' : string) (v : value) (o : object) :
  k' <> k -> get_prop k' (put_index n k v o) = get_prop k' o.
Proof.
  intros Hne.
  assert (Hk : (k =? k') = false) by (apply String.eqb_neq; congruence).
  induction o as [|[k0 v0] o IH]; simpl.
  - now rewrite Hk.
  - destruct (array_index k0) as [n'|]; [destruct (n' <? n)%N|]; simpl;
      rewrite ?Hk, ?IH; reflexivity.
Qed.

Lemma get_prop_app (k : string) (o o' : object) :
  get_prop k (o ++ o')%list =
    match get_prop k o with Some v => Some v | None => get_prop k o' end.
Proof.
  induction o as [|[k' v'] o IH]; simpl; [reflexivity|].
  destruct (k' =? k); [reflexivity | exact IH].
Qed.

Lemma get_prop_set_same (k : string) (v : value) (o : object) :
  get_prop k (set_prop k v o) = Some v.
Proof.
  unfold set_prop. destruct (get_prop k o) eqn:E.
  - apply get_prop_replace_same. now rewrite E.
  - destruct (array_index k).
    + now apply get_prop_put_index_same.
    + rewrite get_prop_app, E. simpl. now rewrite String.eqb_refl.
Qed.

Lemma get_prop_set_other (k k' : string) (v : value) (o : object) :
  k' <> k -> get_prop k' (set_prop k v o) = get_prop k' o.
Proof.
  intros Hne. unfold set_prop. destruct (get_prop k o) eqn:E.
  - now apply get_prop_replace_other.
  - destruct (array_index k).
    + now apply get_prop_put_index_other.
    + rewrite get_prop_app. simpl.
      assert (Hk : (k =? k') = false) by (apply String.eqb_neq; congruence).
      rewrite Hk. now destruct (get_prop k' o).
Qed.

Lemma assign_all_app (kvs kvs' : list (string * value)) (o : object) :
  assign_all (kvs ++ kvs')%list o = assign_all kvs' (assign_all kvs o).
Proof. unfold assign_all. apply fold_left_app. Qed.

Lemma get_prop_assign_other (k : string) (kvs : list (string * value)) :
  (forall kv, In kv kvs -> fst kv <> k) ->
  forall o, get_prop k (assign_all kvs o) = get_prop k o.
Proof.
  induction kvs as [|[k' v'] kvs IH]; intros H o; [reflexivity|].
  change (assign_all ((k', v') :: kvs) o) with (assign_all kvs (set_prop k' v' o)).
  rewrite IH by (intros kv Hin; apply H; now right).
  apply get_prop_set_other. intros ->. now apply (H (k', v')); [left|].
Qed.

(** The last assignment to a key is the one that is read back. *)
Lemma get_prop_assign_last
  (k : string) (v : value) (before after : list (string * value)) (o : object) :
  (forall kv, In kv after -> fst kv <> k) ->
  get_prop k (assign_all (before ++ (k, v) :: after)%list o) = Some v.
Proof.
  intros H. rewrite assign_all_app.
  change (assign_all ((k, v) :: after) (assign_all before o))
    with (assign_all after (set_prop k v (assign_all before o))).
  rewrite (get_prop_assign_other k after H). apply get_prop_set_same.
Qed.

Lemma fold_left_over_map {A B C : Type} (f : A -> C -> A) (g : B -> C) (l : list B) :
  forall a, fold_left f (map g l) a = fold_left (fun a x => f a (g x)) l a.
Proof. induction l as [|x l IH]; intros a; simpl; [reflexivity | apply IH]. Qed.

Lemma row_object_assigns (names : list string) (row : list value) :
  row_object names row =
    JObj (assign_all (map (fun i => (nth i names "", nth i row JNull))
                          (seq 0 (length names))) []).
Proof.
  unfold row_object, assign_all. now rewrite fold_left_over_map.
Qed.

(** X11. In the object built for a row ([single], [all], [loop]), the
    name of column [i], when it is not [__proto__], reads back field [i],
    provided no later column has the same name: among columns of one name the
    last one wins. *)
Theorem row_object_reads_back (names : list string) (row : list value) (i : nat) :
  i < length names ->
  nth i names "" <> "__proto__" ->
  (forall j, i < j < length names -> nth j names "" <> nth i names "") ->
  exists o,
    row_object names row = JObj o /\
    get_prop (nth i names "") o = Some (nth i row JNull).
Proof.
  intros Hi _ Hlast. rewrite row_object_assigns. eexists. split; [reflexivity|].
  replace (length names) with (i + S (length names - S i)) at 1 by lia.
  rewrite seq_app, map_app. simpl seq. simpl map.
  apply get_prop_assign_last.
  intros kv Hin. apply in_map_iff in Hin. destruct Hin as (j & <- & Hj).
  apply in_seq in Hj. simpl. apply Hlast. lia.
Qed.

Lemma row_object_reads_back_witness :
  exists o,
    row_object ["id"; "title"; "id"] [JNum 1; JStr "a"; JNum 9] = JObj o /\
    get_prop "id" o = Some (JNum 9).
Proof.
  apply (row_object_reads_back ["id"; "title"; "id"] [JNum 1; JStr "a"; JNum 9] 2).
  - simpl; lia.
  - discriminate.
  - intros j Hj. simpl in Hj. lia.
Defined.

(** ** Selecting by name *)

Lemma object_of_names (ns : list string) :
  Underscore.object_ (map JStr ns) (map JStr ns) =
    JObj (assign_all (map (fun n => (n, JStr n)) ns) []).
Proof.
  unfold Underscore.object_, assign_all. f_equal.
  generalize (@nil (string * value)).
  induction ns as [|n ns IH]; intros o; simpl; [reflexivity | apply IH].
Qed.

Lemma select_state_names (ns : list string) :
  ns <> [] ->
  select_state (map JStr ns) = Some (Underscore.object_ (map JStr ns) (map JStr ns)).
Proof.
  intros H. destruct ns as [|n [|n' ns]]; [now elim H | reflexivity | reflexivity].
Qed.

(** X12. For one or more names, [select(n1, ..., nk)] and
    [select([n1, ..., nk])] are the same call.  Without names they differ:
    [select()] selects everything, [select([])] compiles to an empty column
    list. *)
Theorem select_names_or_array_of_names (ns : list string) (t : string) (s : SQLite) :
  ns <> [] ->
  select (map JStr ns) = select [JArr (map JStr ns)] /\
  fst ((table t ;; select [] ;; getExequery) s) = Return [JStr ("SELECT * FROM " ++ t)] /\
  fst ((table t ;; select [JArr []] ;; getExequery) s) = Return [JStr ("SELECT  FROM " ++ t)].
Proof.
  intros H. split; [|split].
  - unfold select. rewrite (select_state_names ns H). reflexivity.
  - unfold bind, table, select, mutate, getExequery, compile; simpl.
    now rewrite append_empty_r.
  - unfold bind, table, select, mutate, getExequery, compile; simpl.
    now rewrite append_empty_r.
Qed.

Lemma select_names_or_array_of_names_witness :
  select (map JStr ["id"; "title"]) = select [JArr (map JStr ["id"; "title"])].
Proof.
  refine (proj1 (select_names_or_array_of_names ["id"; "title"] "t" (opened quiet false) _)).
  discriminate.
Defined.

Lemma assign_all_fresh (ns : list string) :
  NoDup ns ->
  Forall (fun n => array_index n = None) ns ->
  forall o,
    (forall n, In n ns -> get_prop n o = None) ->
    assign_all (map (fun n => (n, JStr n)) ns) o =
      (o ++ map (fun n => (n, JStr n)) ns)%list.
Proof.
  induction ns as [|n ns IH]; intros Hnd Hidx o Hfresh; simpl.
  - now rewrite app_nil_r.
  - inversion Hnd as [|? ? Hnotin Hnd']; subst.
    inversion Hidx as [|? ? Hn Hidx']; subst.
    change (assign_all ((n, JStr n) :: map (fun n => (n, JStr n)) ns) o)
      with (assign_all (map (fun n => (n, JStr n)) ns) (set_prop n (JStr n) o)).
    assert (Hset : set_prop n (JStr n) o = (o ++ [(n, JStr n)])%list).
    { unfold set_prop. rewrite (Hfresh n (or_introl eq_refl)). now rewrite Hn. }
    rewrite Hset, IH; auto.
    + now rewrite <- app_assoc.
    + intros m Hm. rewrite get_prop_app, (Hfresh m (or_intror Hm)). simpl.
      destruct (n =? m) eqn:E; [|reflexivity].
      apply String.eqb_eq in E; subst. now elim Hnotin.
Qed.

(** X13. Distinct names, none of them the decimal form of an array index
    and none of them [__proto__], are selected in the order given, each
    rendered as ['name AS name']. *)
Theorem select_distinct_names_in_order (ns : list string) (t : string) (s : SQLite) :
  ns <> [] ->
  NoDup ns ->
  Forall (fun n => array_index n = None) ns ->
  ~ In "__proto__" ns ->
  fst ((table t ;; select (map JStr ns) ;; getExequery) s) =
    Return [JStr ("SELECT " ++ join "," (map (fun n => n ++ " AS " ++ n) ns) ++
                  " FROM " ++ t)].
Proof.
  intros Hne Hnd Hidx _.
  unfold bind, table, select, mutate, getExequery, compile.
  cbn [query set_query fst snd q_method q_select q_table q_whereData
       q_order with_select with_method fresh whereClause q_where orderClause].
  rewrite (select_state_names ns Hne), object_of_names.
  rewrite (assign_all_fresh ns Hnd Hidx []) by reflexivity.
  rewrite app_nil_l.
  replace (map (fun n => (n, JStr n)) ns) with (names (map (fun n => (n, n)) ns))
    by (unfold names; now rewrite map_map).
  rewrite columns_names, map_map. cbn [fst snd].
  now rewrite !append_empty_r.
Qed.

Lemma select_distinct_names_in_order_witness :
  fst ((table "t" ;; select (map JStr ["id"; "title"; "order"]) ;; getExequery)
         (opened quiet false)) =
    Return [JStr "SELECT id AS id,title AS title,order AS order FROM t"].
Proof.
  apply (select_distinct_names_in_order ["id"; "title"; "order"] "t" (opened quiet false)).
  - discriminate.
  - repeat constructor; simpl; intuition discriminate.
  - repeat constructor.
  - simpl. intuition discriminate.
Defined.

(** ** [fromFile]: the name of the installed database *)

Lemma strip_extension_no_dot (stem : string) :
  has_dot stem = false -> strip_extension stem = stem.
Proof.
  induction stem as [|c stem IH]; simpl; [reflexivity|].
  intros H. apply orb_false_iff in H. destruct H as [Hc Hs].
  rewrite Hc. simpl. now rewrite IH.
Qed.

Lemma strip_extension_first_dot (stem rest : string) :
  has_dot stem = false -> rest <> "" -> one_line rest = true ->
  strip_extension (stem ++ String "." rest) = stem.
Proof.
  intros Hs Hne Hone. induction stem as [|c stem IH]; simpl.
  - apply String.eqb_neq in Hne. now rewrite Hne, Hone.
  - simpl in Hs. apply orb_false_iff in Hs. destruct Hs as [Hc Hs].
    rewrite Hc. simpl. now rewrite IH.
Qed.

Lemma strip_extension_last_dot (stem : string) :
  has_dot stem = false ->
  strip_extension (stem ++ String "." EmptyString) = stem ++ String "." EmptyString.
Proof.
  intros Hs. induction stem as [|c stem IH]; simpl; [reflexivity|].
  simpl in Hs. apply orb_false_iff in Hs. destruct Hs as [Hc Hs].
  rewrite Hc. simpl. now rewrite IH.
Qed.

(** X14. A file name [stem.rest], where [stem] has no dot and [rest] is
    not empty and has no line break, installs under the name [stem]:
    everything from the first dot on is dropped.  Two files that differ only
    after the first dot are therefore copied to the same path.  A name
    without a dot, or whose only dot is its last character, is kept whole. *)
Theorem fromFile_drops_from_the_first_dot (stem rest rest' directory : string) :
  has_dot stem = false ->
  rest <> "" -> one_line rest = true ->
  rest' <> "" -> one_line rest' = true ->
  strip_extension (stem ++ "." ++ rest) = stem /\
  destination directory (stem ++ "." ++ rest) = directory ++ "/" ++ stem ++ ".sql" /\
  destination directory (stem ++ "." ++ rest) = destination directory (stem ++ "." ++ rest') /\
  strip_extension stem = stem /\
  strip_extension (stem ++ ".") = stem ++ ".".
Proof.
  intros Hs Hr Hl Hr' Hl'.
  change (stem ++ "." ++ rest) with (stem ++ String "." rest).
  change (stem ++ "." ++ rest') with (stem ++ String "." rest').
  unfold destination.
  rewrite (strip_extension_first_dot stem rest Hs Hr Hl).
  rewrite (strip_extension_first_dot stem rest' Hs Hr' Hl').
  repeat split.
  - now apply strip_extension_no_dot.
  - now apply strip_extension_last_dot.
Qed.

Lemma fromFile_drops_from_the_first_dot_witness :
  destination "/data/db" "shop.v2.sqlite" = destination "/data/db" "shop.bak".
Proof.
  refine (proj1 (proj2 (proj2 (fromFile_drops_from_the_first_dot
                                 "shop" "v2.sqlite" "bak" "/data/db" _ _ _ _ _)))).
  - reflexivity.
  - discriminate.
  - reflexivity.
  - discriminate.
  - reflexivity.
Defined.

(** * Properties of the notifications module *)

Lemma length_append (a b : string) :
  String.length (a ++ b) = String.length a + String.length b.
Proof. induction a as [|c a IH]; simpl; [reflexivity | now rewrite IH]. Qed.

Lemma join_length_lower (l : list string) :
  length l - 1 <= String.length (join "," l).
Proof.
  induction l as [|x l IH]; [apply le_n|].
  destruct l as [|y l]; [simpl; lia|].
  rewrite join_cons2, !length_append. simpl in *. lia.
Qed.

Lemma long_array_is_no_keyword (xs : list value) (kw : string) :
  32 <= length xs -> String.length kw < 31 -> (toStr (JArr xs) =? kw) = false.
Proof.
  intros Hl Hk. apply String.eqb_neq. intros E.
  assert (H : length xs - 1 <= String.length (toStr (JArr xs))).
  { simpl toStr. etransitivity; [|apply join_length_lower]. now rewrite length_map. }
  rewrite E in H. lia.
Qed.

(** X15. [validateToken] has no type test and is a length check: a string
    is accepted exactly when it has at least 32 characters and an array
    exactly when it has at least 32 entries (the comparisons with
    ['undefined'] and ['null'] never decide, both being shorter); [null],
    [undefined], numbers and booleans are rejected. *)
Theorem validateToken_is_a_length_check (reads : string -> bool) :
  (forall t, Notifications.validateToken reads (JStr t) = true <->
             32 <= String.length t) /\
  (forall xs, Notifications.validateToken reads (JArr xs) = true <->
              32 <= length xs) /\
  Notifications.validateToken reads JNull = false /\
  Notifications.validateToken reads JUndefined = false /\
  (forall n, Notifications.validateToken reads (JNum n) = false) /\
  (forall b, Notifications.validateToken reads (JBool b) = false).
Proof.
  unfold Notifications.validateToken.
  split; [|split; [|repeat split]].
  - intros t. cbn [nullish negb andb Notifications.differs_from
                   Notifications.length_of Notifications.at_least_32].
    split.
    + intros H. apply andb_true_iff in H. destruct H as [_ H].
      apply Z.leb_le in H. lia.
    + intros H.
      assert (Hu : (t =? "undefined") = false).
      { apply String.eqb_neq. intros ->. simpl in H. lia. }
      assert (Hn : (t =? "null") = false).
      { apply String.eqb_neq. intros ->. simpl in H. lia. }
      rewrite Hu, Hn. cbn [negb andb]. apply Z.leb_le. lia.
  - intros xs. cbn [nullish negb andb Notifications.differs_from
                    Notifications.length_of Notifications.at_least_32].
    split.
    + intros H. apply andb_true_iff in H. destruct H as [_ H].
      apply Z.leb_le in H. lia.
    + intros H.
      rewrite (long_array_is_no_keyword xs "undefined" H) by (simpl; lia).
      rewrite (long_array_is_no_keyword xs "null" H) by (simpl; lia).
      cbn [negb andb]. apply Z.leb_le. lia.
Qed.

(** X16. After any badge call, and after any sequence of them, the badge
    is not negative. *)
Theorem badge_is_never_negative (cs : list Notifications.badge_call) (appBadge : Z) :
  cs <> [] ->
  (0 <= fold_left Notifications.badge_step cs appBadge)%Z.
Proof.
  intros Hne.
  assert (Hstep : forall b c, (0 <= Notifications.badge_step b c)%Z).
  { intros b c. destruct c; simpl;
      unfold Notifications.resetBadge, Notifications.incBadge, Notifications.setBadge; lia. }
  destruct (exists_last Hne) as (cs' & c & ->).
  rewrite fold_left_app. simpl. apply Hstep.
Qed.

Lemma badge_is_never_negative_witness :
  (0 <= fold_left Notifications.badge_step
          [Notifications.SetBadge 3; Notifications.IncBadge (-7)] 5)%Z.
Proof.
  apply (badge_is_never_negative [Notifications.SetBadge 3; Notifications.IncBadge (-7)] 5).
  discriminate.
Defined.

(** X17. On safe integers (the badge, the increments and their sums), two
    increments add up as long as the first does not take the badge below
    zero; an increment that would go to zero or below leaves the badge at
    zero and the excess is forgotten. *)
Theorem badge_increments_add_up (i j appBadge : Z) :
  Notifications.safe_integer appBadge ->
  Notifications.safe_integer i ->
  Notifications.safe_integer j ->
  Notifications.safe_integer (i + j) ->
  Notifications.safe_integer (appBadge + i) ->
  Notifications.safe_integer (appBadge + i + j) ->
  (0 <= appBadge + i)%Z ->
  Notifications.incBadge j (Notifications.incBadge i appBadge) =
    Notifications.incBadge (i + j) appBadge /\
  ((appBadge + j <= 0)%Z -> Notifications.incBadge j appBadge = 0%Z).
Proof.
  intros _ _ _ _ _ _ H.
  unfold Notifications.incBadge, Notifications.setBadge, Notifications.getBadge.
  split; [|intros Hk]; lia.
Qed.

Lemma badge_increments_add_up_witness :
  Notifications.incBadge 4 (Notifications.incBadge (-2) 3) =
    Notifications.incBadge (-2 + 4) 3.
Proof.
  refine (proj1 (badge_increments_add_up (-2) 4 3 _ _ _ _ _ _ _));
    unfold Notifications.safe_integer; lia.
Defined.





(** * Properties of the HTTP driver *)









(** * Properties of the window factory *)

(** X21. The subtitle handed to the action bar is [null] or a truthy
    value, never an empty string, [false] or [undefined]; the title handed
    over is the window's title or the application's name; and a truthy
    window title always shows, as the bar's title or as its subtitle. *)
Theorem action_bar_titles (title subtitle appName : value) :
  let bar := Window.processTitles title subtitle appName in
  (prop bar "subtitle" = JNull \/ truthy (prop bar "subtitle") = true) /\
  (prop bar "title" = title \/ prop bar "title" = appName) /\
  (truthy title = false \/ prop bar "title" = title \/ prop bar "subtitle" = title).
Proof.
  unfold Window.processTitles, prop, Window.and_also, or_else; simpl.
  destruct (truthy title) eqn:Ht.
  - destruct (truthy subtitle) eqn:Hs; [auto|].
    destruct (Window.is_false subtitle); auto.
  - rewrite Ht. destruct (Window.is_false subtitle); auto.
Qed.

(** * The table of a chain *)

Lemma effect_keeps_table (c : call) (q : Query) : q_table (effect c q) = q_table q.
Proof.
  destruct c; simpl; try reflexivity.
  apply (where_step_keeps_data args q).
Qed.

Lemma effects_keep_table (cs : list call) :
  forall q, q_table (fold_left (fun q c => effect c q) cs q) = q_table q.
Proof.
  induction cs as [|c cs IH]; intros q; simpl; [reflexivity|].
  now rewrite IH, effect_keeps_table.
Qed.

(** X22. Whatever was chained after [table(t)] (selections, filters,
    updates, orders), ending the chain with [truncate] compiles to exactly
    ['TRUNCATE TABLE t'] with no bound value, and ending it with [delete] to
    ['DELETE FROM t'] followed by the WHERE clause and the where values
    gathered so far. *)
Theorem truncate_and_delete_keep_only_the_table
  (t : string) (cs : list call) (s : SQLite) :
  fst ((table t ;; chain (cs ++ [CallTruncate]) ;; getExequery) s) =
    Return [JStr ("TRUNCATE TABLE " ++ t)] /\
  exists q,
    query (snd ((table t ;; chain cs) s)) = Some q /\
    fst ((table t ;; chain (cs ++ [CallDelete]) ;; getExequery) s) =
      Return (JStr ("DELETE FROM " ++ t ++ whereClause q) :: q_whereData q).
Proof.
  set (q := fold_left (fun q c => effect c q) cs (fresh t)).
  assert (Ht : q_table q = t) by (unfold q; now rewrite effects_keep_table).
  assert (Hrun : forall c,
            (table t ;; chain (cs ++ [c]) ;; getExequery) s =
              (compile (effect c q), set_query (Some (effect c q)) s)).
  { intros c. unfold bind at 1. rewrite table_starts.
    unfold bind at 1.
    rewrite (chain_active (cs ++ [c]) _ (fresh t) (set_query_query _ _)).
    rewrite set_query_twice, fold_left_app. simpl fold_left. fold q.
    now rewrite (getExequery_active _ _ (set_query_query _ _)). }
  split.
  - rewrite Hrun. unfold compile; simpl. now rewrite Ht.
  - exists q. split.
    + rewrite chain_from_table. reflexivity.
    + rewrite Hrun. unfold compile; simpl. now rewrite Ht.
Qed.

(** * The boundary of selecting by mapping *)

(** A mapping with a numeric [length] is walked by index, not by key: the
    properties on mappings above are about mappings of names. *)
Example select_array_like_mapping_is_walked_by_index :
  fst ((table "t" ;; select [JObj [("length", JNum 2); ("a", JStr "b")]] ;; getExequery)
         (opened quiet false)) =
    Return [JStr "SELECT 0 AS undefined,1 AS undefined FROM t"].
Proof. reflexivity. Qed.
